(** * FunctionalPlus, [include/fplus/maybe.h]

    A shallow embedding of the optional container [maybe<T>] and of the free
    functions of namespace [fplus] that work on it, followed by the
    properties of the container's contract.

    Conventions of the embedding.
    - A value of a C++ type [T] is a Rocq value of type [T]; copy-constructing
      a [T] yields the same value.  The one place where the order of a copy
      and a release matters, [maybe::operator=], is modelled a second time on
      an explicit free store (module [Mem]).
    - A C++ evaluation ends in an [outcome]: a normal return, a thrown
      exception, the [std::abort] of a failed [assert], or undefined
      behaviour.  [assert] is the macro of [<cassert>] as the header includes
      it, without [NDEBUG].
    - A callable passed to a combinator ([F], [G], ...) may read and write
      the rest of the program (call counters, logs): it is a computation
      [comp W] over a world [W]. *)

From stdpp Require Import base option gmap.

(** ** Outcomes and computations *)

(** A thrown C++ object: its static type and its value. *)
Definition exn : Type := { E : Type & E }.

Definition thrown {E : Type} (e : E) : exn := existT E e.

Inductive outcome (A : Type) : Type :=
  | Ret (a : A)          (* normal return *)
  | Throw (e : exn)      (* [throw e;] *)
  | Abort                (* failed [assert]: [std::abort] *)
  | Undef.               (* undefined behaviour *)
Arguments Ret {A} a.
Arguments Throw {A} e.
Arguments Abort {A}.
Arguments Undef {A}.

#[global] Instance outcome_ret : MRet outcome := fun A a => Ret a.

#[global] Instance outcome_bind : MBind outcome := fun A B k o =>
  match o with
  | Ret a => k a
  | Throw e => Throw e
  | Abort => Abort
  | Undef => Undef
  end.

#[global] Instance outcome_throw : MThrow exn outcome := fun A e => Throw e.

(** [assert(c)] *)
Definition assert_ (c : bool) : outcome unit :=
  if c then Ret tt else Abort.

(** A computation over a world [W]: the outcome and the world it leaves. *)
Definition comp (W A : Type) : Type := W -> outcome A * W.

#[global] Instance comp_ret {W} : MRet (comp W) := fun A a w => (Ret a, w).

#[global] Instance comp_bind {W} : MBind (comp W) := fun A B k c w =>
  match c w with
  | (Ret a, w') => k a w'
  | (Throw e, w') => (Throw e, w')
  | (Abort, w') => (Abort, w')
  | (Undef, w') => (Undef, w')
  end.

(** A step that does not touch the world. *)
Definition lift {W A} (o : outcome A) : comp W A := fun w => (o, w).

(** ** The container *)

(** [std::unique_ptr<T> ptr_]: null, or the owned [T]. *)
Record maybe (T : Type) : Type := mk_maybe { ptr_ : option T }.
Arguments mk_maybe {T} ptr_.
Arguments ptr_ {T} m.

(** [explicit operator bool] of [std::unique_ptr] *)
Definition ptr_bool {T} (p : option T) : bool :=
  match p with Some _ => true | None => false end.

(** [*p] of [std::unique_ptr]; undefined on the null pointer *)
Definition deref {T} (p : option T) : outcome T :=
  match p with Some v => Ret v | None => Undef end.

(** Member functions of [class maybe]. *)
Module Maybe.
Section Members.
Context {T : Type}.

Definition is_just (this : maybe T) : bool := ptr_bool (ptr_ this).

Definition is_nothing (this : maybe T) : bool := negb (is_just this).

Definition unsafe_get_just (this : maybe T) : outcome T :=
  assert_ (is_just this) ;; deref (ptr_ this).

(** [maybe() {}] *)
Definition ctor : maybe T := mk_maybe None.

(** [maybe(const T& val_just)] *)
Definition ctor_val (val_just : T) : maybe T := mk_maybe (Some val_just).

(** [maybe(const maybe<T>& other)] *)
Definition ctor_copy (other : maybe T) : outcome (maybe T) :=
  if is_just other
  then v ← unsafe_get_just other; mret (mk_maybe (Some v))
  else mret (mk_maybe None).

(** [operator = (const maybe<T>& other)]: the state of [*this] afterwards *)
Definition assign (this other : maybe T) : outcome (maybe T) :=
  if is_just other
  then v ← unsafe_get_just other; mret (mk_maybe (Some v))
  else mret (mk_maybe None).

End Members.
End Maybe.

(** ** Free functions of namespace [fplus] *)

(** The value type's own [operator ==]. *)
Class CppEq (T : Type) := cpp_eq : T -> T -> bool.

Definition is_just {T} (m : maybe T) : bool := Maybe.is_just m.

Definition is_nothing {T} (m : maybe T) : bool := negb (is_just m).

Definition unsafe_get_just {T} (m : maybe T) : outcome T :=
  Maybe.unsafe_get_just m.

Definition just_with_default {T} (defaultValue : T) (m : maybe T) : outcome T :=
  if is_just m then unsafe_get_just m else mret defaultValue.

Definition throw_on_nothing {E T} (e : E) (m : maybe T) : outcome T :=
  if is_nothing m then mthrow (thrown e) else unsafe_get_just m.

Definition just {T} (val : T) : maybe T := Maybe.ctor_val val.

Definition nothing {T} : maybe T := Maybe.ctor.

(** [operator ==] *)
Definition maybe_eq {T} `{CppEq T} (x y : maybe T) : outcome bool :=
  if is_just x && is_just y
  then vx ← unsafe_get_just x; vy ← unsafe_get_just y; mret (cpp_eq vx vy)
  else mret (eqb (is_just x) (is_just y)).

(** [operator !=] *)
Definition maybe_neq {T} `{CppEq T} (x y : maybe T) : outcome bool :=
  b ← maybe_eq x y; mret (negb b).

(** The closure [lift_maybe] returns, as a function of the captured [f]. *)
Definition lift_maybe {W A B} (f : A -> comp W B) : maybe A -> comp W (maybe B) :=
  fun m =>
    if is_just m
    then v ← lift (unsafe_get_just m); b ← f v; mret (just b)
    else mret nothing.

(** The closure [and_then_maybe] returns, as a function of the captured
    [f] and [g]. *)
Definition and_then_maybe {W X Y Z}
    (f : X -> comp W (maybe Y)) (g : Y -> comp W (maybe Z)) : X -> comp W (maybe Z) :=
  fun x =>
    maybeB ← f x;
    if is_just maybeB
    then v ← lift (unsafe_get_just maybeB); g v
    else mret nothing.

(** The overload of [and_then_maybe] for three functions. *)
Definition and_then_maybe3 {W X Y Z U}
    (f : X -> comp W (maybe Y)) (g : Y -> comp W (maybe Z))
    (h : Z -> comp W (maybe U)) : X -> comp W (maybe U) :=
  and_then_maybe (and_then_maybe f g) h.

(** The overload of [and_then_maybe] for four functions. *)
Definition and_then_maybe4 {W X Y Z U V}
    (f : X -> comp W (maybe Y)) (g : Y -> comp W (maybe Z))
    (h : Z -> comp W (maybe U)) (i : U -> comp W (maybe V)) : X -> comp W (maybe V) :=
  and_then_maybe (and_then_maybe (and_then_maybe f g) h) i.

Definition flatten_maybe {T} (maybe_maybe : maybe (maybe T)) : outcome (maybe T) :=
  if is_nothing maybe_maybe then mret nothing
  else unsafe_get_just maybe_maybe.

(** ** Callables used to state the properties *)

(** A C++ function without side effects, as a callable. *)
Definition pure_fn {W A B} (f : A -> B) : A -> comp W B := fun a => mret (f a).

(** Modelled from the spec: [identity] is not in [maybe.h]; it returns its
    argument. *)
Definition identity {A} (x : A) : A := x.

(** Modelled from the spec: [compose] is not in [maybe.h]; [compose(f, g)]
    is the callable that runs [g] and hands its result to [f], the order in
    which the functor law composes the two lifted functions. *)
Definition compose {W A B C} (f : B -> comp W C) (g : A -> comp W B) : A -> comp W C :=
  fun a => b ← g a; f b.

(** A call-counting stub: [counted g] behaves as [g] on the world and
    increments a counter of its own at every invocation. *)
Definition counted {W A B} (g : A -> comp W B) : A -> comp (W * nat) B :=
  fun a '(w, n) => let '(r, w') := g a w in (r, (w', S n)).

(** A callable run next to a counter that is not its own. *)
Definition uncounted {W A B} (f : A -> comp W B) : A -> comp (W * nat) B :=
  fun a '(w, n) => let '(r, w') := f a w in (r, (w', n)).

(** ** [class maybe] on an explicit free store

    The same class once more, with [std::unique_ptr<T>] as an address into a
    free store, to follow the order in which [operator =] copies and
    releases. *)
Module Mem.

Definition loc : Type := positive.

Section Store.
Context {T : Type}.

(** The free store of the [T] objects made by [new], and the member [ptr_]
    of every live [maybe<T>] object, by the object's address. *)
Record mem : Type := mk_mem {
  heap : gmap loc T;
  objs : gmap loc (option loc)
}.

(** Reading the [T] a reference refers to. *)
Definition load (r : loc) : comp mem T := fun s =>
  match heap s !! r with
  | Some v => (Ret v, s)
  | None => (Undef, s)
  end.

(** [new T(v)] *)
Definition new_ (v : T) : comp mem loc := fun s =>
  let l := fresh (dom (heap s)) in
  (Ret l, mk_mem (<[l := v]> (heap s)) (objs s)).

(** [delete p] for a non-null [p] *)
Definition delete_ (l : loc) : comp mem unit := fun s =>
  match heap s !! l with
  | Some _ => (Ret tt, mk_mem (delete l (heap s)) (objs s))
  | None => (Undef, s)
  end.

(** The member [ptr_] of the object at [this], read and written. *)
Definition get_ptr (this : loc) : comp mem (option loc) := fun s =>
  match objs s !! this with
  | Some p => (Ret p, s)
  | None => (Undef, s)
  end.

Definition set_ptr (this : loc) (p : option loc) : comp mem unit := fun s =>
  match objs s !! this with
  | Some _ => (Ret tt, mk_mem (heap s) (<[this := p]> (objs s)))
  | None => (Undef, s)
  end.

(** [ptr_.reset(p)]: [ptr_] takes [p], then the pointer held before is
    deleted.  Move assignment from a temporary [unique_ptr] is
    [reset(tmp.release())]. *)
Definition reset (this : loc) (p : option loc) : comp mem unit :=
  old ← get_ptr this;
  set_ptr this p;;
  match old with
  | Some l => delete_ l
  | None => mret tt
  end.

Definition is_just (this : loc) : comp mem bool :=
  p ← get_ptr this; mret (ptr_bool p).

(** [unsafe_get_just] returns a reference to the held [T]. *)
Definition unsafe_get_just (this : loc) : comp mem loc :=
  b ← is_just this;
  lift (assert_ b);;
  p ← get_ptr this;
  lift (deref p).

(** [other.is_just() ? ptr_t(new T(other.unsafe_get_just())) : ptr_t()] *)
Definition copy_ptr (other : loc) : comp mem (option loc) :=
  b ← is_just other;
  if b : bool
  then r ← unsafe_get_just other; v ← load r; l ← new_ v; mret (Some l)
  else mret None.

(** Initialisation of the member [ptr_] of a new object at [this]. *)
Definition init_ptr (this : loc) (p : option loc) : comp mem unit := fun s =>
  (Ret tt, mk_mem (heap s) (<[this := p]> (objs s))).

(** [maybe() {}], constructed at address [this] *)
Definition ctor (this : loc) : comp mem unit := init_ptr this None.

(** [maybe(const T& val_just)] *)
Definition ctor_val (this : loc) (val_just : T) : comp mem unit :=
  l ← new_ val_just; init_ptr this (Some l).

(** [maybe(const maybe<T>& other)] *)
Definition ctor_copy (this other : loc) : comp mem unit :=
  p ← copy_ptr other; init_ptr this p.

(** [operator = (const maybe<T>& other)] *)
Definition assign (this other : loc) : comp mem loc :=
  tmp ← copy_ptr other;
  reset this tmp;;
  mret this.

(** What the object at [this] holds, as a container value; [None] when
    [this] is no object or its pointer dangles. *)
Definition contents (s : mem) (this : loc) : option (maybe T) :=
  p ← objs s !! this;
  match p with
  | None => Some (mk_maybe None)
  | Some l => v ← heap s !! l; Some (mk_maybe (Some v))
  end.

End Store.
Arguments mem T : clear implicits.
End Mem.

(** ** Concrete inputs

    The two functions of the end-to-end scenario: the double of a positive
    number, the successor of a number below 100. *)
Definition double_if_positive {W} : Z → comp W (maybe Z) :=
  pure_fn (λ x, if (0 <? x)%Z then just (x * 2)%Z else nothing).

Definition succ_if_small {W} : Z → comp W (maybe Z) :=
  pure_fn (λ x, if (x <? 100)%Z then just (x + 1)%Z else nothing).

(** A store with one container at address 1 that holds 42 at address 5. *)
Definition mem_one_just : Mem.mem Z :=
  Mem.mk_mem {[ 5%positive := 42%Z ]} {[ 1%positive := Some 5%positive ]}.

(** ** Vocabulary of the further properties *)

(** An evaluation that ends in the abort of an assertion or in undefined
    behaviour. *)
Definition crashes {A} (o : outcome A) : bool :=
  match o with
  | Abort | Undef => true
  | Ret _ | Throw _ => false
  end.

(** [operator ==] of [int], for concrete runs. *)
Definition Z_cpp_eq : CppEq Z := Z.eqb.

(** A callable that throws [e] whatever it is given. *)
Definition throwing {W A B E} (e : E) : A → comp W B :=
  fun _ w => (Throw (thrown e), w).

Section StoreInvariant.
Context {T : Type}.

(** Every non-null [ptr_] refers to a live [T]. *)
Definition no_dangling (s : Mem.mem T) : Prop :=
  map_Forall (λ _ p, is_Some p → is_Some (p ≫= (Mem.heap s !!.))) (Mem.objs s).

(** No two containers hold the same non-null pointer. *)
Definition exclusive (s : Mem.mem T) : Prop :=
  map_Forall (λ o1 p1,
    map_Forall (λ o2 p2, is_Some p1 → p1 = p2 → o1 = o2) (Mem.objs s))
    (Mem.objs s).

(** Every live [T] is held by a container. *)
Definition no_leak (s : Mem.mem T) : Prop :=
  map_Forall (λ l _, map_Exists (λ _ p, p = Some l) (Mem.objs s)) (Mem.heap s).

Definition owned (s : Mem.mem T) : Prop :=
  no_dangling s ∧ exclusive s ∧ no_leak s.

#[global] Instance owned_dec (s : Mem.mem T) : Decision (owned s).
Proof. unfold owned, no_dangling, exclusive, no_leak. apply _. Defined.

(** The store after the container at [this], whose pointer was [old], has
    taken a copy of [ov] made at [l'] and released [old]. *)
Definition store_after (s : Mem.mem T) (this : Mem.loc)
    (old : option Mem.loc) (ov : option T) (l' : Mem.loc) : Mem.mem T :=
  let h1 := match ov with
            | Some v => <[l' := v]> (Mem.heap s)
            | None => Mem.heap s
            end in
  let h2 := match old with
            | Some lt => delete lt h1
            | None => h1
            end in
  Mem.mk_mem h2 (<[this := match ov with
                           | Some _ => Some l'
                           | None => None
                           end]> (Mem.objs s)).

End StoreInvariant.
Arguments store_after : simpl never.

(** A store with two containers: a Just of 42 at address 1 (value at 6) and
    a Nothing at address 2. *)
Definition mem_two : Mem.mem Z :=
  Mem.mk_mem {[ 6%positive := 42%Z ]}
             (<[ 2%positive := None ]> {[ 1%positive := Some 6%positive ]}).

(** * Properties *)

(** ** The two states of the container *)

Lemma maybe_cases {T} (m : maybe T) : m = nothing ∨ ∃ v, m = just v.
Proof. destruct m as [[v|]]; [right; by exists v | by left]. Qed.

Lemma is_just_just {T} (v : T) : is_just (just v) = true.
Proof. reflexivity. Qed.

Lemma is_just_nothing {T} : is_just (@nothing T) = false.
Proof. reflexivity. Qed.

Lemma is_nothing_inv {T} (m : maybe T) : is_nothing m = true → m = nothing.
Proof. by destruct m as [[v|]]. Qed.

Lemma is_just_inv {T} (m : maybe T) : is_just m = true → ∃ v, m = just v.
Proof. destruct m as [[v|]]; [by exists v | done]. Qed.

Lemma is_nothing_is_just {T} (m : maybe T) : is_nothing m = negb (Maybe.is_just m).
Proof. reflexivity. Qed.

Lemma unsafe_get_just_just {T} (v : T) : unsafe_get_just (just v) = Ret v.
Proof. reflexivity. Qed.

Lemma unsafe_get_just_nothing {T} : unsafe_get_just (@nothing T) = Abort.
Proof. reflexivity. Qed.

(** Copying a container, by construction or by assignment, gives an equal
    container and cannot fail. *)
Lemma ctor_copy_id {T} (other : maybe T) : Maybe.ctor_copy other = Ret other.
Proof. by destruct other as [[v|]]. Qed.

Lemma assign_id {T} (this other : maybe T) : Maybe.assign this other = Ret other.
Proof. by destruct other as [[v|]]. Qed.

Ltac maybe_destruct m :=
  let v := fresh "v" in
  destruct (maybe_cases m) as [->|[v ->]].

(** ** Extraction *)

(** C3. On a container in the Just state [unsafe_get_just] returns the held
    value, as member and as free function.  On a container in the Nothing
    state the assertion fails: the outcome is the abort, and no value is
    returned. *)
Theorem unsafe_get_just_contract {T} (m : maybe T) :
  (∀ v, m = just v →
     unsafe_get_just m = Ret v ∧ Maybe.unsafe_get_just m = Ret v)
  ∧ (is_nothing m = true →
     unsafe_get_just m = Abort ∧ Maybe.unsafe_get_just m = Abort
     ∧ ∀ v, unsafe_get_just m ≠ Ret v).
Proof.
  split.
  - intros v ->. by split.
  - intros ->%is_nothing_inv. by repeat split.
Qed.

(** C8. [just_with_default] always returns: the held value of a Just, the
    default for a Nothing. *)
Theorem just_with_default_total {T} (d : T) (m : maybe T) :
  (∃ r, just_with_default d m = Ret r)
  ∧ (∀ v, just_with_default d (just v) = Ret v)
  ∧ just_with_default d nothing = Ret d
  ∧ just_with_default d m = Ret (default d (ptr_ m)).
Proof.
  repeat split; try done.
  all: maybe_destruct m; by eauto.
Qed.

(** C4. [throw_on_nothing] returns the held value of a Just without
    raising, and raises on a Nothing, only then, the error it was given. *)
Theorem throw_on_nothing_spec {E T} (e : E) (m : maybe T) :
  (∀ v, m = just v → throw_on_nothing e m = Ret v)
  ∧ (is_nothing m = true → throw_on_nothing e m = Throw (thrown e))
  ∧ (∀ x, throw_on_nothing e m = Throw x → is_nothing m = true ∧ x = thrown e).
Proof.
  split; [|split].
  - by intros v ->.
  - by intros ->%is_nothing_inv.
  - intros x. maybe_destruct m; [|done]. by intros [= <-].
Qed.

(** ** Flattening *)

(** C5. [flatten_maybe] gives Nothing for an outer Nothing and the inner
    container, as it is, for an outer Just. *)
Theorem flatten_maybe_join {T} (mm : maybe (maybe T)) :
  (is_nothing mm = true → flatten_maybe mm = Ret nothing)
  ∧ (∀ inner, mm = just inner → flatten_maybe mm = Ret inner)
  ∧ (∀ v : T, flatten_maybe (just (just v)) = Ret (just v))
  ∧ flatten_maybe (just (@nothing T)) = Ret nothing
  ∧ flatten_maybe (@nothing (maybe T)) = Ret nothing.
Proof.
  split; [|split; [|done]].
  - by intros ->%is_nothing_inv.
  - by intros inner ->.
Qed.

(** ** Comparison *)

(** C6. [x == y] returns true exactly when both are Nothing, or both are
    Just and the value type's [==] holds of the two held values; [x != y]
    returns the negation. *)
Theorem maybe_eq_iff {T} `{CppEq T} (x y : maybe T) :
  ∃ b, maybe_eq x y = Ret b
     ∧ maybe_neq x y = Ret (negb b)
     ∧ (b = true ↔
          (is_nothing x = true ∧ is_nothing y = true)
          ∨ (∃ vx vy, x = just vx ∧ y = just vy ∧ cpp_eq vx vy = true)).
Proof.
  maybe_destruct x; maybe_destruct y.
  - exists true. repeat split; by eauto.
  - exists false. repeat split; [done|].
    by intros [[_ ?]|(? & ? & ? & _)].
  - exists false. repeat split; [done|].
    by intros [[? _]|(? & ? & _ & ? & _)].
  - exists (cpp_eq v v0). repeat split.
    + intros Hb. right. by exists v, v0.
    + intros [[? _]|(vx & vy & [= ->] & [= ->] & Hb)]; done.
Qed.

(** A container compares equal to itself when the value type's [==] is
    reflexive on what it holds; a Nothing always does. *)
Lemma maybe_eq_refl {T} `{CppEq T} (m : maybe T) :
  (∀ v, m = just v → cpp_eq v v = true) → maybe_eq m m = Ret true.
Proof.
  maybe_destruct m; [done|].
  intros Hv. unfold maybe_eq. simpl. by rewrite (Hv v).
Qed.

(** ** Computations *)

Lemma comp_bind_ret {W A B} (c : comp W A) (k : A → comp W B) (w w' : W) (a : A) :
  c w = (Ret a, w') → (c ≫= k) w = k a w'.
Proof. unfold mbind, comp_bind. by intros ->. Qed.

Lemma comp_ret_bind {W A B} (a : A) (k : A → comp W B) (w : W) :
  (mret a ≫= k) w = k a w.
Proof. reflexivity. Qed.

Lemma comp_bind_assoc {W A B C}
    (c : comp W A) (k : A → comp W B) (k' : B → comp W C) (w : W) :
  ((c ≫= k) ≫= k') w = (c ≫= λ a, k a ≫= k') w.
Proof.
  unfold mbind, comp_bind.
  by destruct (c w) as [[a|e| |] w'].
Qed.

Lemma comp_bind_ext {W A B} (c : comp W A) (k k' : A → comp W B) (w : W) :
  (∀ a w', k a w' = k' a w') → (c ≫= k) w = (c ≫= k') w.
Proof.
  intros Hk. unfold mbind, comp_bind.
  by destruct (c w) as [[a|e| |] w'].
Qed.

Lemma uncounted_run {W A B} (f : A → comp W B) (a : A) (w w' : W) (n : nat) (r : outcome B) :
  f a w = (r, w') → uncounted f a (w, n) = (r, (w', n)).
Proof. unfold uncounted. by intros ->. Qed.

Lemma counted_run {W A B} (g : A → comp W B) (a : A) (w w' : W) (n : nat) (r : outcome B) :
  g a w = (r, w') → counted g a (w, n) = (r, (w', S n)).
Proof. unfold counted. by intros ->. Qed.

(** ** Functor lift *)

Lemma lift_maybe_nothing {W A B} (f : A → comp W B) (w : W) :
  lift_maybe f nothing w = (Ret nothing, w).
Proof. reflexivity. Qed.

Lemma lift_maybe_just {W A B} (f : A → comp W B) (v : A) (w : W) :
  lift_maybe f (just v) w = (f v ≫= λ b, mret (just b)) w.
Proof. reflexivity. Qed.

(** C2. The function [lift_maybe f] returns, applied to a Nothing, gives
    Nothing and leaves the world as it was, so that a counting [f] has
    counted no call; applied to a Just of [v] it gives the Just of what [f]
    returns for [v]. *)
Theorem lift_maybe_spec {W A B} (f : A → comp W B) (m : maybe A) (w : W) :
  (is_nothing m = true →
     lift_maybe f m w = (Ret nothing, w)
     ∧ ∀ n, lift_maybe (counted f) m (w, n) = (Ret nothing, (w, n)))
  ∧ (∀ v b w', m = just v → f v w = (Ret b, w') →
       lift_maybe f m w = (Ret (just b), w'))
  ∧ (∀ (p : A → B) v, m = just v →
       lift_maybe (pure_fn p) m w = (Ret (just (p v)), w)).
Proof.
  split; [|split].
  - by intros ->%is_nothing_inv.
  - intros v b w' -> Hf. rewrite lift_maybe_just.
    by rewrite (comp_bind_ret _ _ _ _ _ Hf).
  - by intros p v ->.
Qed.

(** C7. Functor laws: lifting [identity] gives back the container, and
    lifting [compose f g] is running the lifted [g] and then the lifted [f]
    on its result. *)
Theorem lift_maybe_functor_laws {W A B C}
    (f : B → comp W C) (g : A → comp W B) (m : maybe A) (w : W) :
  lift_maybe (pure_fn identity) m w = (Ret m, w)
  ∧ lift_maybe (compose f g) m w = (mb ← lift_maybe g m; lift_maybe f mb) w.
Proof.
  split.
  - by maybe_destruct m.
  - maybe_destruct m; [done|].
    rewrite lift_maybe_just. unfold compose.
    change (lift_maybe g (just v)) with (g v ≫= λ b, mret (just b)).
    rewrite !comp_bind_assoc. apply comp_bind_ext. intros b w'.
    by rewrite comp_ret_bind, lift_maybe_just.
Qed.

(** ** Monadic bind *)

(** C1. When [f x] is Nothing, the function [and_then_maybe f g] returns
    gives Nothing and leaves the world as [f] left it, whatever [g] is: a
    counting [g] has counted no call.  When [f x] is the Just of [y], it
    gives what [g y] gives, after one call of [g]. *)
Theorem and_then_maybe_bind {W X Y Z}
    (f : X → comp W (maybe Y)) (g : Y → comp W (maybe Z)) (x : X) (w w' : W) :
  (∀ m, f x w = (Ret m, w') → is_nothing m = true →
     and_then_maybe f g x w = (Ret nothing, w')
     ∧ ∀ n, and_then_maybe (uncounted f) (counted g) x (w, n)
            = (Ret nothing, (w', n)))
  ∧ (∀ y, f x w = (Ret (just y), w') →
     and_then_maybe f g x w = g y w'
     ∧ ∀ n, and_then_maybe (uncounted f) (counted g) x (w, n)
            = (let '(r, w'') := g y w' in (r, (w'', S n)))).
Proof.
  split.
  - intros m Hf ->%is_nothing_inv. split.
    + unfold and_then_maybe. by rewrite (comp_bind_ret _ _ _ _ _ Hf).
    + intros n. unfold and_then_maybe.
      by rewrite (comp_bind_ret _ _ _ _ _ (uncounted_run f x w w' n _ Hf)).
  - intros y Hf. split.
    + unfold and_then_maybe. by rewrite (comp_bind_ret _ _ _ _ _ Hf).
    + intros n. unfold and_then_maybe.
      by rewrite (comp_bind_ret _ _ _ _ _ (uncounted_run f x w w' n _ Hf)).
Qed.

(** The three-function form, step by step. *)
Lemma and_then_maybe3_steps {W X Y Z U}
    (f : X → comp W (maybe Y)) (g : Y → comp W (maybe Z))
    (h : Z → comp W (maybe U)) (x : X) (w : W) :
  and_then_maybe3 f g h x w
  = (mb ← f x;
     if is_just mb
     then b ← lift (unsafe_get_just mb);
          mc ← g b;
          if is_just mc then c ← lift (unsafe_get_just mc); h c else mret nothing
     else mret nothing) w.
Proof.
  unfold and_then_maybe3, and_then_maybe.
  rewrite comp_bind_assoc. apply comp_bind_ext. intros mb w'.
  by maybe_destruct mb.
Qed.

(** Nesting from the left and nesting from the right give the same
    function. *)
Lemma and_then_maybe_assoc {W X Y Z U}
    (f : X → comp W (maybe Y)) (g : Y → comp W (maybe Z))
    (h : Z → comp W (maybe U)) (x : X) (w : W) :
  and_then_maybe (and_then_maybe f g) h x w
  = and_then_maybe f (and_then_maybe g h) x w.
Proof.
  unfold and_then_maybe.
  rewrite comp_bind_assoc. apply comp_bind_ext. intros mb w'.
  by maybe_destruct mb.
Qed.

(** C9. The overloads for three and for four functions give, on every
    input, what the two-function bind gives when applied repeatedly from the
    left. *)
Theorem and_then_maybe_chain {W X Y Z U V}
    (f : X → comp W (maybe Y)) (g : Y → comp W (maybe Z))
    (h : Z → comp W (maybe U)) (i : U → comp W (maybe V)) (x : X) (w : W) :
  and_then_maybe3 f g h x w = and_then_maybe (and_then_maybe f g) h x w
  ∧ and_then_maybe4 f g h i x w
    = and_then_maybe (and_then_maybe (and_then_maybe f g) h) i x w.
Proof. split; reflexivity. Qed.

(** ** Assignment on the free store *)

Section MemFacts.
Context {T : Type}.
Implicit Types (s : Mem.mem T) (this other l : Mem.loc) (v : T).

Lemma mem_fresh_not_live s : Mem.heap s !! fresh (dom (Mem.heap s)) = None.
Proof. apply not_elem_of_dom, is_fresh. Qed.

Lemma mem_get_ptr_run s this p :
  Mem.objs s !! this = Some p → Mem.get_ptr this s = (Ret p, s).
Proof. unfold Mem.get_ptr. by intros ->. Qed.

Lemma mem_is_just_run s this p :
  Mem.objs s !! this = Some p → Mem.is_just this s = (Ret (ptr_bool p), s).
Proof.
  intros Hp. unfold Mem.is_just.
  by rewrite (comp_bind_ret _ _ _ _ _ (mem_get_ptr_run _ _ _ Hp)).
Qed.

Lemma mem_unsafe_get_just_run s this l :
  Mem.objs s !! this = Some (Some l) → Mem.unsafe_get_just this s = (Ret l, s).
Proof.
  intros Hp. unfold Mem.unsafe_get_just.
  rewrite (comp_bind_ret _ _ _ _ _ (mem_is_just_run _ _ _ Hp)). simpl.
  unfold mbind, comp_bind, lift. simpl.
  by rewrite (mem_get_ptr_run _ _ _ Hp).
Qed.

Lemma mem_unsafe_get_just_null s this :
  Mem.objs s !! this = Some None → Mem.unsafe_get_just this s = (Abort, s).
Proof.
  intros Hp. unfold Mem.unsafe_get_just.
  by rewrite (comp_bind_ret _ _ _ _ _ (mem_is_just_run _ _ _ Hp)).
Qed.

Lemma mem_copy_ptr_just s other l v :
  Mem.objs s !! other = Some (Some l) → Mem.heap s !! l = Some v →
  Mem.copy_ptr other s
  = (Ret (Some (fresh (dom (Mem.heap s)))),
     Mem.mk_mem (<[fresh (dom (Mem.heap s)) := v]> (Mem.heap s)) (Mem.objs s)).
Proof.
  intros Hp Hv. unfold Mem.copy_ptr.
  rewrite (comp_bind_ret _ _ _ _ _ (mem_is_just_run _ _ _ Hp)). simpl.
  rewrite (comp_bind_ret _ _ _ _ _ (mem_unsafe_get_just_run _ _ _ Hp)).
  unfold mbind, comp_bind, Mem.load. by rewrite Hv.
Qed.

Lemma mem_copy_ptr_nothing s other :
  Mem.objs s !! other = Some None → Mem.copy_ptr other s = (Ret None, s).
Proof.
  intros Hp. unfold Mem.copy_ptr.
  by rewrite (comp_bind_ret _ _ _ _ _ (mem_is_just_run _ _ _ Hp)).
Qed.

Lemma mem_reset_null s this p :
  Mem.objs s !! this = Some None →
  Mem.reset this p s
  = (Ret tt, Mem.mk_mem (Mem.heap s) (<[this := p]> (Mem.objs s))).
Proof.
  intros Hp. unfold Mem.reset.
  rewrite (comp_bind_ret _ _ _ _ _ (mem_get_ptr_run _ _ _ Hp)).
  unfold mbind, comp_bind, Mem.set_ptr. by rewrite Hp.
Qed.

Lemma mem_reset_owned s this p l v :
  Mem.objs s !! this = Some (Some l) → Mem.heap s !! l = Some v →
  Mem.reset this p s
  = (Ret tt, Mem.mk_mem (delete l (Mem.heap s)) (<[this := p]> (Mem.objs s))).
Proof.
  intros Hp Hv. unfold Mem.reset.
  rewrite (comp_bind_ret _ _ _ _ _ (mem_get_ptr_run _ _ _ Hp)).
  unfold mbind, comp_bind, Mem.set_ptr, Mem.delete_. rewrite Hp. simpl.
  by rewrite Hv.
Qed.

Lemma mem_contents_null s this :
  Mem.objs s !! this = Some None → Mem.contents s this = Some nothing.
Proof. unfold Mem.contents. by intros ->. Qed.

Lemma mem_contents_owned s this l v :
  Mem.objs s !! this = Some (Some l) → Mem.heap s !! l = Some v →
  Mem.contents s this = Some (just v).
Proof. unfold Mem.contents. intros -> . simpl. by intros ->. Qed.

Lemma mem_contents_inv s this m :
  Mem.contents s this = Some m →
  (Mem.objs s !! this = Some None ∧ m = nothing)
  ∨ (∃ l v, Mem.objs s !! this = Some (Some l) ∧ Mem.heap s !! l = Some v
            ∧ m = just v).
Proof.
  unfold Mem.contents.
  destruct (Mem.objs s !! this) as [[l|]|] eqn:Hp; simpl; [|naive_solver..].
  destruct (Mem.heap s !! l) as [v|] eqn:Hv; simpl; [|done].
  intros [= <-]. right. by exists l, v.
Qed.

(** C10. Assigning a container to itself returns normally and leaves it
    holding what it held.  For a Just the copy is made in fresh storage while
    the old value is still live, and only then is the old storage released:
    the free store afterwards is the old one with the copy added and then the
    old value deleted. *)
Theorem self_assignment_safe s this m :
  Mem.contents s this = Some m →
  ∃ s', Mem.assign this this s = (Ret this, s')
      ∧ Mem.contents s' this = Some m
      ∧ (∀ l v, Mem.objs s !! this = Some (Some l) → Mem.heap s !! l = Some v →
           ∃ l', Mem.heap s !! l' = None
               ∧ Mem.objs s' !! this = Some (Some l')
               ∧ Mem.heap s' = delete l (<[l' := v]> (Mem.heap s))).
Proof.
  intros [[Hp ->]|(l & v & Hp & Hv & ->)]%mem_contents_inv.
  - eexists. unfold Mem.assign.
    rewrite (comp_bind_ret _ _ _ _ _ (mem_copy_ptr_nothing _ _ Hp)).
    rewrite (comp_bind_ret _ _ _ _ _ (mem_reset_null _ _ None Hp)).
    split; [reflexivity|]. split.
    + apply mem_contents_null. simpl. apply lookup_insert_eq.
    + intros l v. by rewrite Hp.
  - set (l' := fresh (dom (Mem.heap s))).
    assert (Hl' : Mem.heap s !! l' = None) by apply mem_fresh_not_live.
    assert (Hne : l' ≠ l) by (intros ->; congruence).
    eexists. unfold Mem.assign.
    rewrite (comp_bind_ret _ _ _ _ _ (mem_copy_ptr_just _ _ _ _ Hp Hv)).
    fold l'.
    set (s1 := Mem.mk_mem (<[l' := v]> (Mem.heap s)) (Mem.objs s)).
    assert (Hv1 : Mem.heap s1 !! l = Some v)
      by (simpl; by rewrite lookup_insert_ne).
    rewrite (comp_bind_ret _ _ _ _ _
               (mem_reset_owned s1 this (Some l') l v Hp Hv1)).
    split; [reflexivity|]. split.
    + apply (mem_contents_owned _ _ l'); simpl.
      * apply lookup_insert_eq.
      * rewrite lookup_delete_ne by done. apply lookup_insert_eq.
    + intros l0 v0. rewrite Hp. intros [= <-]. rewrite Hv. intros [= <-].
      exists l'. simpl. split; [done|]. split; [|done].
      apply lookup_insert_eq.
Qed.

(** Assignment between two objects that own their values apart: [*this]
    ends up holding what [other] holds, as [Maybe.assign] says, and [other]
    keeps it. *)
Lemma mem_assign_distinct s this other m0 m :
  this ≠ other →
  Mem.contents s this = Some m0 → Mem.contents s other = Some m →
  (∀ l, Mem.objs s !! this = Some (Some l) →
        Mem.objs s !! other ≠ Some (Some l)) →
  ∃ s', Mem.assign this other s = (Ret this, s')
      ∧ Maybe.assign m0 m = Ret m
      ∧ Mem.contents s' this = Some m
      ∧ Mem.contents s' other = Some m.
Proof.
  intros Hne H0 Hm Hown.
  apply mem_contents_inv in Hm as [[Hpo ->]|(lo & vo & Hpo & Hvo & ->)];
    apply mem_contents_inv in H0 as [[Hpt ->]|(lt & vt & Hpt & Hvt & ->)];
    eexists; unfold Mem.assign.
  - rewrite (comp_bind_ret _ _ _ _ _ (mem_copy_ptr_nothing _ _ Hpo)).
    rewrite (comp_bind_ret _ _ _ _ _ (mem_reset_null _ _ None Hpt)).
    repeat split.
    + apply mem_contents_null; simpl. apply lookup_insert_eq.
    + apply mem_contents_null; simpl. by rewrite lookup_insert_ne.
  - rewrite (comp_bind_ret _ _ _ _ _ (mem_copy_ptr_nothing _ _ Hpo)).
    rewrite (comp_bind_ret _ _ _ _ _ (mem_reset_owned _ _ None _ _ Hpt Hvt)).
    repeat split.
    + apply mem_contents_null; simpl. apply lookup_insert_eq.
    + apply mem_contents_null; simpl. by rewrite lookup_insert_ne.
  - rewrite (comp_bind_ret _ _ _ _ _ (mem_copy_ptr_just _ _ _ _ Hpo Hvo)).
    set (l' := fresh (dom (Mem.heap s))).
    assert (Hl' : Mem.heap s !! l' = None) by apply mem_fresh_not_live.
    assert (l' ≠ lo) by (intros ->; congruence).
    set (s1 := Mem.mk_mem (<[l' := vo]> (Mem.heap s)) (Mem.objs s)).
    rewrite (comp_bind_ret _ _ _ _ _ (mem_reset_null s1 this (Some l') Hpt)).
    repeat split.
    + apply (mem_contents_owned _ _ l'); simpl; apply lookup_insert_eq.
    + apply (mem_contents_owned _ _ lo); simpl; by rewrite lookup_insert_ne.
  - rewrite (comp_bind_ret _ _ _ _ _ (mem_copy_ptr_just _ _ _ _ Hpo Hvo)).
    set (l' := fresh (dom (Mem.heap s))).
    assert (Hl' : Mem.heap s !! l' = None) by apply mem_fresh_not_live.
    assert (l' ≠ lo) by (intros ->; congruence).
    assert (l' ≠ lt) by (intros ->; congruence).
    assert (lt ≠ lo) by (intros ->; by eapply Hown).
    set (s1 := Mem.mk_mem (<[l' := vo]> (Mem.heap s)) (Mem.objs s)).
    assert (Hv1 : Mem.heap s1 !! lt = Some vt)
      by (simpl; by rewrite lookup_insert_ne).
    rewrite (comp_bind_ret _ _ _ _ _
               (mem_reset_owned s1 this (Some l') lt vt Hpt Hv1)).
    repeat split.
    + apply (mem_contents_owned _ _ l'); simpl.
      * apply lookup_insert_eq.
      * rewrite lookup_delete_ne by done. apply lookup_insert_eq.
    + apply (mem_contents_owned _ _ lo); simpl.
      * by rewrite lookup_insert_ne.
      * rewrite lookup_delete_ne by done. by rewrite lookup_insert_ne.
Qed.

End MemFacts.

(** ** Concrete runs *)

Example and_then_maybe_scenario :
  and_then_maybe double_if_positive succ_if_small 5%Z tt = (Ret (just 11%Z), tt)
  ∧ and_then_maybe double_if_positive succ_if_small (-3)%Z tt = (Ret nothing, tt)
  ∧ and_then_maybe double_if_positive succ_if_small 60%Z tt = (Ret nothing, tt).
Proof. repeat split. Qed.

(** With a counting second function: no call for [-3], one call for [60]. *)
Example and_then_maybe_call_count :
  and_then_maybe (uncounted double_if_positive) (counted succ_if_small)
    (-3)%Z (tt, 0) = (Ret nothing, (tt, 0))
  ∧ and_then_maybe (uncounted double_if_positive) (counted succ_if_small)
      60%Z (tt, 0) = (Ret nothing, (tt, 1)).
Proof. repeat split. Qed.

Example lift_maybe_call_count :
  lift_maybe (counted (pure_fn Z.succ)) nothing (tt, 0) = (Ret nothing, (tt, 0))
  ∧ lift_maybe (counted (pure_fn Z.succ)) (just 4%Z) (tt, 0)
    = (Ret (just 5%Z), (tt, 1)).
Proof. repeat split. Qed.

Example self_assignment_run :
  Mem.assign 1%positive 1%positive mem_one_just
  = (Ret 1%positive,
     Mem.mk_mem {[ 6%positive := 42%Z ]} {[ 1%positive := Some 6%positive ]}).
Proof. vm_compute. reflexivity. Qed.

(** ** Instances of the conditional properties *)

Lemma unsafe_get_just_contract_witness :
  unsafe_get_just (just 7) = Ret 7 ∧ unsafe_get_just (@nothing nat) = Abort.
Proof.
  split.
  - exact (proj1 (proj1 (unsafe_get_just_contract (just 7)) 7 eq_refl)).
  - exact (proj1 (proj2 (unsafe_get_just_contract (@nothing nat)) eq_refl)).
Defined.

Lemma throw_on_nothing_spec_witness :
  throw_on_nothing 404 (just 7) = Ret 7
  ∧ throw_on_nothing 404 (@nothing nat) = Throw (thrown 404).
Proof.
  split.
  - exact (proj1 (throw_on_nothing_spec 404 (just 7)) 7 eq_refl).
  - exact (proj1 (proj2 (throw_on_nothing_spec 404 (@nothing nat))) eq_refl).
Defined.

Lemma flatten_maybe_join_witness :
  flatten_maybe (just (just 7)) = Ret (just 7)
  ∧ flatten_maybe (@nothing (maybe nat)) = Ret nothing.
Proof.
  split.
  - exact (proj1 (proj2 (flatten_maybe_join (just (just 7)))) (just 7) eq_refl).
  - exact (proj1 (flatten_maybe_join (@nothing (maybe nat))) eq_refl).
Defined.

Lemma lift_maybe_spec_witness :
  lift_maybe (counted (pure_fn Z.succ)) nothing (tt, 0) = (Ret nothing, (tt, 0))
  ∧ lift_maybe (pure_fn Z.succ) (just 4%Z) tt = (Ret (just 5%Z), tt).
Proof.
  split.
  - exact (proj2 (proj1 (lift_maybe_spec (pure_fn Z.succ) nothing tt) eq_refl) 0).
  - exact (proj1 (proj2 (lift_maybe_spec (pure_fn Z.succ) (just 4%Z) tt))
             4%Z 5%Z tt eq_refl eq_refl).
Defined.

Lemma and_then_maybe_bind_witness :
  and_then_maybe (uncounted double_if_positive) (counted succ_if_small)
    (-3)%Z (tt, 0) = (Ret nothing, (tt, 0))
  ∧ and_then_maybe double_if_positive succ_if_small 5%Z tt
    = succ_if_small 10%Z tt.
Proof.
  split.
  - exact (proj2 (proj1 (and_then_maybe_bind double_if_positive succ_if_small
                           (-3)%Z tt tt) nothing eq_refl eq_refl) 0).
  - exact (proj1 (proj2 (and_then_maybe_bind double_if_positive succ_if_small
                           5%Z tt tt) 10%Z eq_refl)).
Defined.

Lemma self_assignment_safe_witness :
  Mem.contents mem_one_just 1%positive = Some (just 42%Z)
  ∧ ∃ s', Mem.assign 1%positive 1%positive mem_one_just = (Ret 1%positive, s')
        ∧ Mem.contents s' 1%positive = Some (just 42%Z).
Proof.
  split; [reflexivity|].
  destruct (self_assignment_safe mem_one_just 1%positive (just 42%Z) eq_refl)
    as (s' & Hrun & Hc & _).
  by exists s'.
Defined.

(** * Further properties of the free functions *)

(** ** Guards *)

(** X1. The library guards each of its own uses of [unsafe_get_just]:
    [just_with_default], [throw_on_nothing], [flatten_maybe], [==], [!=] and
    the copies never end in a failed assertion or in undefined behaviour,
    whatever they are given. *)
Theorem guarded_functions_never_crash {E T} `{CppEq T}
    (e : E) (d : T) (m m' : maybe T) (mm : maybe (maybe T)) :
  crashes (just_with_default d m) = false
  ∧ crashes (throw_on_nothing e m) = false
  ∧ crashes (flatten_maybe mm) = false
  ∧ crashes (maybe_eq m m') = false
  ∧ crashes (maybe_neq m m') = false
  ∧ crashes (Maybe.ctor_copy m) = false
  ∧ crashes (Maybe.assign m m') = false.
Proof.
  repeat split.
  1-2, 6: by maybe_destruct m.
  - by maybe_destruct mm.
  - by maybe_destruct m; maybe_destruct m'.
  - by maybe_destruct m; maybe_destruct m'.
  - by maybe_destruct m'.
Qed.

(** X2. The functions [lift_maybe] and [and_then_maybe] return crash only
    where a callable they were given does: with callables that never end in
    a failed assertion or undefined behaviour, neither do they. *)
Theorem combinators_never_crash {W A X Y Z}
    (k : A → comp W X) (f : X → comp W (maybe Y)) (g : Y → comp W (maybe Z)) :
  (∀ a w, crashes (k a w).1 = false) →
  (∀ x w, crashes (f x w).1 = false) →
  (∀ y w, crashes (g y w).1 = false) →
  ∀ (m : maybe A) (x : X) (w : W),
    crashes (lift_maybe k m w).1 = false
    ∧ crashes (and_then_maybe f g x w).1 = false.
Proof.
  intros Hk Hf Hg m x w. split.
  - maybe_destruct m; [done|]. rewrite lift_maybe_just.
    unfold mbind, comp_bind. specialize (Hk v w).
    by destruct (k v w) as [[b|e| |] w'].
  - unfold and_then_maybe, mbind, comp_bind. specialize (Hf x w).
    destruct (f x w) as [[mb|e| |] w']; try done.
    maybe_destruct mb; [done|]. apply Hg.
Qed.

(** ** Exceptions *)

(** X3. An exception of a callable passes through unchanged.  When [f]
    throws, [and_then_maybe f g] throws the same object and [g] is not
    called; when [f] gives a Just and [g] throws, that object is thrown.
    When [k] throws on the held value, [lift_maybe k] throws it, and no
    container is returned. *)
Theorem combinators_propagate_exceptions {W A B X Y Z}
    (k : A → comp W B) (f : X → comp W (maybe Y)) (g : Y → comp W (maybe Z))
    (e : exn) (w w' : W) :
  (∀ x, f x w = (Throw e, w') →
     and_then_maybe f g x w = (Throw e, w')
     ∧ ∀ n, and_then_maybe (uncounted f) (counted g) x (w, n)
            = (Throw e, (w', n)))
  ∧ (∀ x y w1, f x w = (Ret (just y), w1) → g y w1 = (Throw e, w') →
     and_then_maybe f g x w = (Throw e, w'))
  ∧ (∀ v, k v w = (Throw e, w') → lift_maybe k (just v) w = (Throw e, w')).
Proof.
  split; [|split].
  - intros x Hf. split.
    + unfold and_then_maybe, mbind, comp_bind. by rewrite Hf.
    + intros n. unfold and_then_maybe, mbind, comp_bind.
      by rewrite (uncounted_run f x w w' n _ Hf).
  - intros x y w1 Hf Hg. unfold and_then_maybe.
    by rewrite (comp_bind_ret _ _ _ _ _ Hf).
  - intros v Hk. rewrite lift_maybe_just.
    unfold mbind, comp_bind. by rewrite Hk.
Qed.

(** ** Laws of the bind *)

(** X4. [just] is a unit of the bind on both sides: binding [just] with [g]
    is [g], and binding [f] with [just] is [f], outcome and world alike. *)
Theorem and_then_maybe_unit_laws {W X Y Z}
    (f : X → comp W (maybe Y)) (g : X → comp W (maybe Z)) (x : X) (w : W) :
  and_then_maybe (pure_fn just) g x w = g x w
  ∧ and_then_maybe f (pure_fn just) x w = f x w.
Proof.
  split; [done|].
  unfold and_then_maybe, mbind, comp_bind.
  destruct (f x w) as [[mb|e| |] w']; try done.
  by maybe_destruct mb.
Qed.

(** X5. Chains may be nested from either side: the overloads for three and
    four functions, which nest from the left, give what nesting from the
    right gives. *)
Theorem and_then_maybe_chain_right {W X Y Z U V}
    (f : X → comp W (maybe Y)) (g : Y → comp W (maybe Z))
    (h : Z → comp W (maybe U)) (i : U → comp W (maybe V)) (x : X) (w : W) :
  and_then_maybe3 f g h x w = and_then_maybe f (and_then_maybe g h) x w
  ∧ and_then_maybe4 f g h i x w
    = and_then_maybe f (and_then_maybe g (and_then_maybe h i)) x w.
Proof.
  split.
  - apply and_then_maybe_assoc.
  - unfold and_then_maybe4.
    rewrite and_then_maybe_assoc. apply and_then_maybe_assoc.
Qed.

Lemma lift_unsafe_get_just_bind {W A B} (v : A) (k : A → comp W B) (w : W) :
  (lift (unsafe_get_just (just v)) ≫= k) w = k v w.
Proof. reflexivity. Qed.

(** X6. A chain of three stops at the first Nothing, with the world as that
    stage left it and without running the later stages; when all stages give
    a Just the result is that of the last. *)
Theorem and_then_maybe3_short_circuit {W X Y Z U}
    (f : X → comp W (maybe Y)) (g : Y → comp W (maybe Z))
    (h : Z → comp W (maybe U)) (x : X) (w w1 : W) :
  (f x w = (Ret nothing, w1) →
     and_then_maybe3 f g h x w = (Ret nothing, w1)
     ∧ ∀ n, and_then_maybe3 (uncounted f) (counted g) (counted h) x (w, n)
            = (Ret nothing, (w1, n)))
  ∧ (∀ y w2, f x w = (Ret (just y), w1) → g y w1 = (Ret nothing, w2) →
     and_then_maybe3 f g h x w = (Ret nothing, w2)
     ∧ ∀ n, and_then_maybe3 (uncounted f) (uncounted g) (counted h) x (w, n)
            = (Ret nothing, (w2, n)))
  ∧ (∀ y z w2, f x w = (Ret (just y), w1) → g y w1 = (Ret (just z), w2) →
     and_then_maybe3 f g h x w = h z w2).
Proof.
  split; [|split].
  - intros Hf. split; [|intros n]; rewrite and_then_maybe3_steps.
    + by rewrite (comp_bind_ret _ _ _ _ _ Hf).
    + by rewrite (comp_bind_ret _ _ _ _ _ (uncounted_run f x w w1 n _ Hf)).
  - intros y w2 Hf Hg. split; [|intros n]; rewrite and_then_maybe3_steps.
    + rewrite (comp_bind_ret _ _ _ _ _ Hf). simpl.
      rewrite lift_unsafe_get_just_bind. by rewrite (comp_bind_ret _ _ _ _ _ Hg).
    + rewrite (comp_bind_ret _ _ _ _ _ (uncounted_run f x w w1 n _ Hf)). simpl.
      rewrite lift_unsafe_get_just_bind.
      by rewrite (comp_bind_ret _ _ _ _ _ (uncounted_run g y w1 w2 n _ Hg)).
  - intros y z w2 Hf Hg. rewrite and_then_maybe3_steps.
    rewrite (comp_bind_ret _ _ _ _ _ Hf). simpl.
    rewrite lift_unsafe_get_just_bind. by rewrite (comp_bind_ret _ _ _ _ _ Hg).
Qed.

Lemma and_then_maybe_ret_just {W X Y Z}
    (f : X → comp W (maybe Y)) (g : Y → comp W (maybe Z))
    (x : X) (w w' : W) (r : maybe Z) :
  and_then_maybe f g x w = (Ret r, w') → is_just r = true →
  ∃ y w1, f x w = (Ret (just y), w1) ∧ g y w1 = (Ret r, w').
Proof.
  unfold and_then_maybe, mbind, comp_bind.
  destruct (f x w) as [[mb|e| |] w1]; try done.
  maybe_destruct mb.
  - by intros [= <- <-].
  - intros Hg _. by exists v, w1.
Qed.

(** X7. A Just out of a chain means that every stage gave a Just, each
    called on what the stage before held: for the two-function bind, and for
    the overload with four functions. *)
Theorem and_then_maybe_just_inv {W X Y Z U V}
    (f : X → comp W (maybe Y)) (g : Y → comp W (maybe Z))
    (h : Z → comp W (maybe U)) (i : U → comp W (maybe V)) (x : X) (w w' : W) :
  (∀ r, and_then_maybe f g x w = (Ret r, w') → is_just r = true →
     ∃ y w1, f x w = (Ret (just y), w1) ∧ g y w1 = (Ret r, w'))
  ∧ (∀ r, and_then_maybe4 f g h i x w = (Ret r, w') → is_just r = true →
     ∃ y z u w1 w2 w3,
       f x w = (Ret (just y), w1) ∧ g y w1 = (Ret (just z), w2)
       ∧ h z w2 = (Ret (just u), w3) ∧ i u w3 = (Ret r, w')).
Proof.
  split.
  - intros r. apply and_then_maybe_ret_just.
  - intros r Hr Hj. unfold and_then_maybe4 in Hr.
    destruct (and_then_maybe_ret_just _ _ _ _ _ _ Hr Hj) as (u & w3 & Hh & Hi).
    destruct (and_then_maybe_ret_just _ _ _ _ _ _ Hh eq_refl)
      as (z & w2 & Hg & Hh').
    destruct (and_then_maybe_ret_just _ _ _ _ _ _ Hg eq_refl)
      as (y & w1 & Hf & Hg').
    by exists y, z, u, w1, w2, w3.
Qed.

(** ** Lift, bind and flatten expressed by one another *)

(** X8. [flatten_maybe] is the bind of the identity with the identity, and
    [and_then_maybe f g] is [f], then the lifted [g], then
    [flatten_maybe]. *)
Theorem flatten_maybe_and_bind {W X Y Z}
    (f : X → comp W (maybe Y)) (g : Y → comp W (maybe Z))
    (mm : maybe (maybe Z)) (x : X) (w : W) :
  and_then_maybe (pure_fn (λ v, v)) (pure_fn (λ v, v)) mm w
  = (flatten_maybe mm, w)
  ∧ and_then_maybe f g x w
    = (mb ← f x; mc ← lift_maybe g mb; lift (flatten_maybe mc)) w.
Proof.
  split.
  - by maybe_destruct mm.
  - unfold and_then_maybe. apply comp_bind_ext. intros mb w1.
    maybe_destruct mb; [done|].
    unfold lift_maybe, mbind, comp_bind. simpl.
    by destruct (g v w1) as [[c|e| |] w2].
Qed.

(** X9. [lift_maybe k] is the bind of the identity with [k] followed by
    [just]. *)
Theorem lift_maybe_as_bind {W A B} (k : A → comp W B) (m : maybe A) (w : W) :
  lift_maybe k m w
  = and_then_maybe (pure_fn (λ v, v)) (λ a, b ← k a; mret (just b)) m w.
Proof. by maybe_destruct m. Qed.

(** X10. Laws of [flatten_maybe]: it undoes a lifted [just]; and of three
    nested levels it does not matter whether the outer two or the inner two
    are flattened first. *)
Theorem flatten_maybe_laws {T} (m : maybe T) (mmm : maybe (maybe (maybe T))) :
  (mm ← lift_maybe (pure_fn just) m; lift (flatten_maybe mm)) tt = (Ret m, tt)
  ∧ (mm ← lift_maybe (λ x, lift (flatten_maybe x)) mmm;
     lift (flatten_maybe mm)) tt
    = (mm ← flatten_maybe mmm; flatten_maybe mm, tt).
Proof.
  split.
  - by maybe_destruct m.
  - maybe_destruct mmm; [done|].
    rename v into mm. maybe_destruct mm; [done|].
    rename v into m'. by maybe_destruct m'.
Qed.

(** X11. [lift_maybe] keeps the state of the container: when it returns, the
    result is a Just exactly when the argument was, and a Just result holds
    what [k] returned for the held value. *)
Theorem lift_maybe_preserves_state {W A B}
    (k : A → comp W B) (m : maybe A) (w w' : W) (r : maybe B) :
  lift_maybe k m w = (Ret r, w') →
  is_just r = is_just m
  ∧ (∀ v, m = just v → ∃ b, k v w = (Ret b, w') ∧ r = just b).
Proof.
  maybe_destruct m.
  - intros [= <- <-]. by split.
  - rewrite lift_maybe_just. unfold mbind, comp_bind.
    destruct (k v w) as [[b|e| |] w1] eqn:Hk; try done.
    intros [= <- <-]. split; [done|].
    intros v' [= <-]. by exists b.
Qed.

(** ** Extraction and comparison *)

(** X12. What a normal return tells: [throw_on_nothing] and
    [unsafe_get_just] return [v] exactly for the Just of [v];
    [just_with_default] returns [v] for the Just of [v], or for a Nothing
    when [v] is the default. *)
Theorem extraction_inversion {E T} (e : E) (d v : T) (m : maybe T) :
  (throw_on_nothing e m = Ret v ↔ m = just v)
  ∧ (unsafe_get_just m = Ret v ↔ m = just v)
  ∧ (just_with_default d m = Ret v ↔ m = just v ∨ (m = nothing ∧ v = d)).
Proof.
  split; [|split]; split.
  - maybe_destruct m; [done|]. by intros [= ->].
  - by intros ->.
  - maybe_destruct m; [done|]. by intros [= ->].
  - by intros ->.
  - maybe_destruct m.
    + intros [= ->]. by right.
    + intros [= ->]. by left.
  - by intros [->|[-> ->]].
Qed.

(** X13. Comparing with a Nothing tests for Nothing, on either side and
    without a call of the value type's [==]: the result does not depend on
    it. *)
Theorem maybe_eq_nothing {T} (eq1 eq2 : CppEq T) (x : maybe T) :
  @maybe_eq T eq1 x nothing = Ret (is_nothing x)
  ∧ @maybe_eq T eq1 nothing x = Ret (is_nothing x)
  ∧ @maybe_neq T eq1 x nothing = Ret (is_just x)
  ∧ @maybe_eq T eq1 x nothing = @maybe_eq T eq2 x nothing.
Proof. by maybe_destruct x. Qed.

(** X14. [==] on containers is reflexive, symmetric and transitive when the
    value type's [==] is. *)
Theorem maybe_eq_equivalence {T} `{CppEq T} :
  (∀ a : T, cpp_eq a a = true) →
  (∀ a b : T, cpp_eq a b = cpp_eq b a) →
  (∀ a b c : T, cpp_eq a b = true → cpp_eq b c = true → cpp_eq a c = true) →
  ∀ x y z : maybe T,
    maybe_eq x x = Ret true
    ∧ maybe_eq x y = maybe_eq y x
    ∧ (maybe_eq x y = Ret true → maybe_eq y z = Ret true →
       maybe_eq x z = Ret true).
Proof.
  intros Hrefl Hsym Htrans x y z. split; [|split].
  - apply maybe_eq_refl. intros v _. apply Hrefl.
  - maybe_destruct x; maybe_destruct y; try done.
    unfold maybe_eq. simpl. by rewrite Hsym.
  - maybe_destruct x; maybe_destruct y; maybe_destruct z; try done.
    unfold maybe_eq. simpl. intros [= Hxy] [= Hyz].
    by rewrite (Htrans _ _ _ Hxy Hyz).
Qed.

(** ** The two states and the number of calls *)

(** X20. A container is in exactly one of two states, told apart by
    [is_just] and [is_nothing], as members and as free functions: it is the
    Nothing that [nothing] makes, or the Just that [just] makes of exactly
    one value. *)
Theorem maybe_two_states {T} (m : maybe T) :
  is_nothing m = negb (is_just m)
  ∧ Maybe.is_just m = is_just m ∧ Maybe.is_nothing m = is_nothing m
  ∧ (is_just m = true ↔ ∃ v, m = just v)
  ∧ (is_nothing m = true ↔ m = nothing)
  ∧ (∀ v v' : T, just v = just v' → v = v')
  ∧ (∀ v : T, is_just (just v) = true ∧ is_nothing (@nothing T) = true).
Proof.
  split; [done|]. split; [done|]. split; [done|]. split; [|split; [|split]].
  - split; [apply is_just_inv|]. by intros [v ->].
  - split; [apply is_nothing_inv|]. by intros ->.
  - by intros v v' [= ->].
  - done.
Qed.

(** X21. No callable is called twice.  [and_then_maybe f g] calls [f]
    exactly once, and [g] once when [f] gave a Just and not at all
    otherwise; [lift_maybe k] calls [k] once on a Just and not at all on a
    Nothing. *)
Theorem callables_called_at_most_once {W A B X Y Z}
    (k : A → comp W B) (f : X → comp W (maybe Y)) (g : Y → comp W (maybe Z))
    (m : maybe A) (x : X) (w : W) (n : nat) :
  (and_then_maybe (counted f) (uncounted g) x (w, n)).2.2 = S n
  ∧ (and_then_maybe (uncounted f) (counted g) x (w, n)).2.2
    = match (f x w).1 with
      | Ret mb => if is_just mb then S n else n
      | _ => n
      end
  ∧ (lift_maybe (counted k) m (w, n)).2.2 = if is_just m then S n else n.
Proof.
  split; [|split].
  - unfold and_then_maybe, mbind, comp_bind, counted, uncounted.
    destruct (f x w) as [[mb|e| |] w1]; try done.
    maybe_destruct mb; [done|]. simpl.
    by destruct (g v w1) as [r w2].
  - unfold and_then_maybe, mbind, comp_bind, counted, uncounted.
    destruct (f x w) as [[mb|e| |] w1]; try done.
    maybe_destruct mb; [done|]. simpl.
    by destruct (g v w1) as [r w2].
  - maybe_destruct m; [done|].
    unfold lift_maybe, mbind, comp_bind, counted. simpl.
    by destruct (k v w) as [[b|e| |] w1].
Qed.

(** * Further properties of the class on the free store *)

Section MemFurther.
Context {T : Type}.
Implicit Types (s : Mem.mem T) (this other o l : Mem.loc) (v : T).

Lemma no_dangling_live s o l :
  no_dangling s → Mem.objs s !! o = Some (Some l) → is_Some (Mem.heap s !! l).
Proof. intros Hd Ho. by apply (Hd o (Some l) Ho). Qed.

Lemma exclusive_same s o1 o2 l :
  exclusive s →
  Mem.objs s !! o1 = Some (Some l) → Mem.objs s !! o2 = Some (Some l) →
  o1 = o2.
Proof. intros He H1 H2. by apply (He o1 (Some l) H1 o2 (Some l) H2). Qed.

Lemma no_leak_holder s l :
  no_leak s → is_Some (Mem.heap s !! l) → ∃ o, Mem.objs s !! o = Some (Some l).
Proof.
  intros Hl [v Hv]. destruct (Hl l v Hv) as (o & p & Ho & ->). by exists o.
Qed.

Lemma store_after_heap_other s this old ov l' l :
  l ≠ l' → (∀ lt, old = Some lt → l ≠ lt) →
  Mem.heap (store_after s this old ov l') !! l = Mem.heap s !! l.
Proof.
  intros Hl' Hold. unfold store_after. simpl.
  destruct old as [lt|].
  - rewrite lookup_delete_ne by (intros ->; by eapply Hold).
    destruct ov; [by rewrite lookup_insert_ne|done].
  - destruct ov; [by rewrite lookup_insert_ne|done].
Qed.

Lemma store_after_heap_new s this old v l' :
  (∀ lt, old = Some lt → l' ≠ lt) →
  Mem.heap (store_after s this old (Some v) l') !! l' = Some v.
Proof.
  intros Hold. unfold store_after. simpl.
  destruct old as [lt|].
  - rewrite lookup_delete_ne by (intros ->; by eapply Hold).
    apply lookup_insert_eq.
  - apply lookup_insert_eq.
Qed.

Lemma store_after_heap_inv s this old ov l' l :
  is_Some (Mem.heap (store_after s this old ov l') !! l) →
  old ≠ Some l ∧ ((l = l' ∧ is_Some ov) ∨ is_Some (Mem.heap s !! l)).
Proof.
  unfold store_after. simpl. intros Hs.
  assert (old ≠ Some l) as Hold.
  { intros ->. rewrite lookup_delete_eq in Hs. by destruct Hs. }
  split; [done|].
  assert (is_Some (match ov with
                   | Some v => <[l' := v]> (Mem.heap s)
                   | None => Mem.heap s
                   end !! l)) as Hs'.
  { destruct old as [lt|]; [|done].
    rewrite lookup_delete_ne in Hs; [done|congruence]. }
  destruct ov as [v|]; [|by right].
  destruct (decide (l' = l)) as [->|Hne]; [left; by eauto|].
  right. by rewrite lookup_insert_ne in Hs'.
Qed.

Lemma store_after_objs_this s this old ov l' :
  Mem.objs (store_after s this old ov l') !! this
  = Some (match ov with Some _ => Some l' | None => None end).
Proof. apply lookup_insert_eq. Qed.

Lemma store_after_objs_other s this old ov l' o :
  o ≠ this →
  Mem.objs (store_after s this old ov l') !! o = Mem.objs s !! o.
Proof. intros Hne. unfold store_after. simpl. by rewrite lookup_insert_ne. Qed.

Lemma store_after_spec s this old ov l' :
  owned s →
  Mem.objs s !! this = Some old ∨ (Mem.objs s !! this = None ∧ old = None) →
  Mem.heap s !! l' = None →
  owned (store_after s this old ov l')
  ∧ Mem.contents (store_after s this old ov l') this = Some (mk_maybe ov)
  ∧ ∀ o, o ≠ this →
      Mem.contents (store_after s this old ov l') o = Mem.contents s o.
Proof.
  intros (Hd & He & Hl) Hthis Hl'.
  assert (Hold : ∀ lt, old = Some lt → Mem.objs s !! this = Some (Some lt)).
  { intros lt ->. by destruct Hthis as [?|[_ ?]]. }
  assert (Hfresh : ∀ o, Mem.objs s !! o ≠ Some (Some l')).
  { intros o Ho. destruct (no_dangling_live _ _ _ Hd Ho) as [x Hx]. congruence. }
  assert (Hnew : ∀ lt, old = Some lt → l' ≠ lt).
  { intros lt Hlt ->. by apply (Hfresh this), Hold. }
  assert (Hkeep : ∀ o l, o ≠ this → Mem.objs s !! o = Some (Some l) →
            Mem.heap (store_after s this old ov l') !! l = Mem.heap s !! l).
  { intros o l Hne Ho. apply store_after_heap_other.
    - intros ->. by apply (Hfresh o).
    - intros lt Hlt ->. apply Hne. by eapply exclusive_same, Hold. }
  split; [split; [|split]|split].
  - intros o p Ho [l ->].
    change (is_Some (Mem.heap (store_after s this old ov l') !! l)).
    destruct (decide (o = this)) as [->|Hne].
    + rewrite store_after_objs_this in Ho.
      destruct ov as [v|]; [|done]. injection Ho as <-.
      rewrite store_after_heap_new by done. by eexists.
    + rewrite store_after_objs_other in Ho by done.
      rewrite (Hkeep o l Hne Ho). by eapply no_dangling_live.
  - intros o1 p1 H1 o2 p2 H2 [l ->] <-.
    destruct (decide (o1 = this)) as [->|Hne1];
      destruct (decide (o2 = this)) as [->|Hne2]; try done.
    + rewrite store_after_objs_this in H1.
      rewrite store_after_objs_other in H2 by done.
      destruct ov; [|done]. injection H1 as <-. by destruct (Hfresh o2).
    + rewrite store_after_objs_this in H2.
      rewrite store_after_objs_other in H1 by done.
      destruct ov; [|done]. injection H2 as <-. by destruct (Hfresh o1).
    + rewrite store_after_objs_other in H1, H2 by done.
      by eapply exclusive_same.
  - intros l x Hx.
    destruct (store_after_heap_inv s this old ov l' l) as [Hne [[-> Hov]|Hs]];
      [by eexists|..].
    + exists this, (Some l'). split; [|done].
      rewrite store_after_objs_this. by destruct Hov as [v ->].
    + destruct (no_leak_holder _ _ Hl Hs) as [o Ho].
      exists o, (Some l). split; [|done].
      rewrite store_after_objs_other; [done|].
      intros ->. destruct Hthis as [Ht|[Ht _]]; congruence.
  - destruct ov as [v|].
    + apply (mem_contents_owned _ _ l' v).
      * apply store_after_objs_this.
      * by apply store_after_heap_new.
    + apply mem_contents_null, store_after_objs_this.
  - intros o Hne.
    destruct (Mem.objs s !! o) as [[l|]|] eqn:Ho.
    + destruct (no_dangling_live _ _ _ Hd Ho) as [x Hx].
      rewrite (mem_contents_owned s o l x Ho Hx).
      apply (mem_contents_owned _ _ l x).
      * by rewrite store_after_objs_other.
      * by rewrite (Hkeep o l Hne Ho).
    + rewrite (mem_contents_null s o Ho).
      apply mem_contents_null. by rewrite store_after_objs_other.
    + unfold Mem.contents. rewrite store_after_objs_other by done.
      by rewrite Ho.
Qed.

Lemma mem_ctor_copy_run s this other ov :
  Mem.contents s other = Some (mk_maybe ov) →
  Mem.ctor_copy this other s
  = (Ret tt, store_after s this None ov (fresh (dom (Mem.heap s)))).
Proof.
  intros [[Hp [= ->]]|(l & v & Hp & Hv & [= ->])]%mem_contents_inv;
    unfold Mem.ctor_copy.
  - by rewrite (comp_bind_ret _ _ _ _ _ (mem_copy_ptr_nothing _ _ Hp)).
  - by rewrite (comp_bind_ret _ _ _ _ _ (mem_copy_ptr_just _ _ _ _ Hp Hv)).
Qed.

Lemma mem_assign_run s this other old ov :
  Mem.objs s !! this = Some old →
  (∀ lt, old = Some lt → is_Some (Mem.heap s !! lt)) →
  Mem.contents s other = Some (mk_maybe ov) →
  Mem.assign this other s
  = (Ret this, store_after s this old ov (fresh (dom (Mem.heap s)))).
Proof.
  intros Ht Hlive Ho. unfold Mem.assign.
  pose proof (mem_fresh_not_live s) as Hl'.
  apply mem_contents_inv in Ho as [[Hp [= ->]]|(l & v & Hp & Hv & [= ->])].
  - rewrite (comp_bind_ret _ _ _ _ _ (mem_copy_ptr_nothing _ _ Hp)).
    destruct old as [lt|].
    + destruct (Hlive lt eq_refl) as [x Hx].
      by rewrite (comp_bind_ret _ _ _ _ _ (mem_reset_owned _ _ None _ _ Ht Hx)).
    + by rewrite (comp_bind_ret _ _ _ _ _ (mem_reset_null _ _ None Ht)).
  - rewrite (comp_bind_ret _ _ _ _ _ (mem_copy_ptr_just _ _ _ _ Hp Hv)).
    set (l' := fresh (dom (Mem.heap s))) in *.
    set (s1 := Mem.mk_mem (<[l' := v]> (Mem.heap s)) (Mem.objs s)).
    destruct old as [lt|].
    + destruct (Hlive lt eq_refl) as [x Hx].
      assert (Hx1 : Mem.heap s1 !! lt = Some x).
      { simpl. rewrite lookup_insert_ne; [done|]. intros ->. congruence. }
      by rewrite (comp_bind_ret _ _ _ _ _
                    (mem_reset_owned s1 this (Some l') lt x Ht Hx1)).
    + by rewrite (comp_bind_ret _ _ _ _ _ (mem_reset_null s1 this (Some l') Ht)).
Qed.

Lemma maybe_eta (m : maybe T) : m = mk_maybe (ptr_ m).
Proof. by destruct m. Qed.

(** X15. The accessors read the store without changing it and agree with
    the container the object holds: [is_just] tells whether it is a Just, and
    [unsafe_get_just] refers to the held value or, for a Nothing, fails its
    assertion. *)
Theorem mem_accessors_refine s this (m : maybe T) :
  Mem.contents s this = Some m →
  Mem.is_just this s = (Ret (is_just m), s)
  ∧ (r ← Mem.unsafe_get_just this; Mem.load r) s = (unsafe_get_just m, s).
Proof.
  intros [[Hp ->]|(l & v & Hp & Hv & ->)]%mem_contents_inv; split.
  - by rewrite (mem_is_just_run _ _ _ Hp).
  - unfold mbind at 1, comp_bind. by rewrite (mem_unsafe_get_just_null _ _ Hp).
  - by rewrite (mem_is_just_run _ _ _ Hp).
  - rewrite (comp_bind_ret _ _ _ _ _ (mem_unsafe_get_just_run _ _ _ Hp)).
    unfold Mem.load. by rewrite Hv.
Qed.

(** X16. Constructing at an unused address, in a store where every value
    has one holder: the default constructor makes a Nothing, the constructor
    from a value a Just of it; the other containers hold what they held, and
    afterwards again no pointer dangles, no value is shared and none is
    leaked. *)
Theorem mem_ctor_spec s this v :
  owned s → Mem.objs s !! this = None →
  (∃ s', Mem.ctor this s = (Ret tt, s')
       ∧ Mem.contents s' this = Some nothing
       ∧ (∀ o, o ≠ this → Mem.contents s' o = Mem.contents s o)
       ∧ owned s')
  ∧ (∃ s', Mem.ctor_val this v s = (Ret tt, s')
         ∧ Mem.contents s' this = Some (just v)
         ∧ (∀ o, o ≠ this → Mem.contents s' o = Mem.contents s o)
         ∧ owned s').
Proof.
  intros Hown Hthis.
  pose proof (mem_fresh_not_live s) as Hl'.
  split.
  - exists (store_after s this None None (fresh (dom (Mem.heap s)))).
    destruct (store_after_spec s this None None _ Hown
                (or_intror (conj Hthis eq_refl)) Hl') as (? & ? & ?).
    by refine (conj eq_refl (conj _ (conj _ _))).
  - exists (store_after s this None (Some v) (fresh (dom (Mem.heap s)))).
    destruct (store_after_spec s this None (Some v) _ Hown
                (or_intror (conj Hthis eq_refl)) Hl') as (? & ? & ?).
    by refine (conj eq_refl (conj _ (conj _ _))).
Qed.

(** X17. The copy constructor makes a deep copy: the new container holds
    what [other] holds, in storage of its own; [other] and all other
    containers hold what they held, and the store stays free of dangling,
    shared and leaked values. *)
Theorem mem_ctor_copy_deep s this other (m : maybe T) :
  owned s → Mem.objs s !! this = None → Mem.contents s other = Some m →
  ∃ s', Mem.ctor_copy this other s = (Ret tt, s')
      ∧ Mem.contents s' this = Some m
      ∧ (∀ o, o ≠ this → Mem.contents s' o = Mem.contents s o)
      ∧ (∀ l, Mem.objs s' !! this = Some (Some l) →
              Mem.objs s' !! other ≠ Some (Some l))
      ∧ owned s'.
Proof.
  intros Hown Hthis Ho.
  pose proof (mem_fresh_not_live s) as Hl'.
  assert (Hne : other ≠ this).
  { intros ->. unfold Mem.contents in Ho. by rewrite Hthis in Ho. }
  rewrite (maybe_eta m) in Ho |- *.
  exists (store_after s this None (ptr_ m) (fresh (dom (Mem.heap s)))).
  destruct (store_after_spec s this None (ptr_ m) _ Hown
              (or_intror (conj Hthis eq_refl)) Hl') as (Hown' & Hc & Hfr).
  split; [by apply mem_ctor_copy_run|].
  refine (conj Hc (conj Hfr (conj _ Hown'))).
  intros l H1 H2. apply Hne. symmetry.
  destruct Hown' as (_ & He & _). by eapply exclusive_same.
Qed.

(** X18. Assignment between any two containers of a store where every value
    has one holder returns [*this], which then holds what [other] held; all
    other containers, [other] among them, hold what they held, and the store
    stays free of dangling, shared and leaked values. *)
Theorem mem_assign_spec s this other (m0 m : maybe T) :
  owned s →
  Mem.contents s this = Some m0 → Mem.contents s other = Some m →
  ∃ s', Mem.assign this other s = (Ret this, s')
      ∧ Mem.contents s' this = Some m
      ∧ (∀ o, o ≠ this → Mem.contents s' o = Mem.contents s o)
      ∧ owned s'.
Proof.
  intros Hown H0 Ho.
  pose proof (mem_fresh_not_live s) as Hl'.
  assert (∃ old, Mem.objs s !! this = Some old) as [old Hthis].
  { unfold Mem.contents in H0.
    destruct (Mem.objs s !! this) as [old|]; [by exists old|done]. }
  rewrite (maybe_eta m) in Ho |- *.
  exists (store_after s this old (ptr_ m) (fresh (dom (Mem.heap s)))).
  destruct (store_after_spec s this old (ptr_ m) _ Hown (or_introl Hthis) Hl')
    as (Hown' & Hc & Hfr).
  refine (conj _ (conj Hc (conj Hfr Hown'))).
  apply mem_assign_run; [done| |done].
  intros lt ->. destruct Hown as (Hd & _). by eapply no_dangling_live.
Qed.

(** X19. A copy is independent of its original: after a container is
    copy-constructed from [orig] and the copy is then assigned from any
    container [x], [orig] still holds what it held. *)
Theorem mem_copy_independent s copy orig x (m mx : maybe T) :
  owned s → Mem.objs s !! copy = None →
  Mem.contents s orig = Some m → Mem.contents s x = Some mx →
  ∃ s1 s2, Mem.ctor_copy copy orig s = (Ret tt, s1)
         ∧ Mem.assign copy x s1 = (Ret copy, s2)
         ∧ Mem.contents s2 copy = Some mx
         ∧ Mem.contents s2 orig = Some m.
Proof.
  intros Hown Hcopy Ho Hx.
  pose proof (mem_fresh_not_live s) as Hl'.
  assert (Hne : ∀ o mo, Mem.contents s o = Some mo → o ≠ copy).
  { intros o mo Hc ->. unfold Mem.contents in Hc. by rewrite Hcopy in Hc. }
  set (s1 := store_after s copy None (ptr_ m) (fresh (dom (Mem.heap s)))).
  destruct (store_after_spec s copy None (ptr_ m) _ Hown
              (or_intror (conj Hcopy eq_refl)) Hl') as (Hown1 & Hc1 & Hfr1).
  fold s1 in Hown1, Hc1, Hfr1.
  assert (Hx1 : Mem.contents s1 x = Some (mk_maybe (ptr_ mx))).
  { rewrite Hfr1 by eauto. by rewrite <- maybe_eta. }
  pose proof (store_after_objs_this s copy None (ptr_ m)
                (fresh (dom (Mem.heap s)))) as Hp1.
  fold s1 in Hp1.
  destruct (store_after_spec s1 copy _ (ptr_ mx) _ Hown1 (or_introl Hp1)
              (mem_fresh_not_live s1)) as (Hown2 & Hc2 & Hfr2).
  eexists s1, _. split; [|split; [|split]].
  - apply mem_ctor_copy_run. by rewrite <- maybe_eta.
  - apply (mem_assign_run s1 copy x _ (ptr_ mx) Hp1); [|done].
    intros lt Hlt. destruct Hown1 as (Hd1 & _).
    eapply no_dangling_live; [done|]. by rewrite Hp1, Hlt.
  - by rewrite Hc2, <- maybe_eta.
  - rewrite Hfr2, Hfr1 by eauto. done.
Qed.

End MemFurther.

(** ** Instances of the further conditional properties *)

Lemma combinators_never_crash_witness :
  crashes (lift_maybe (pure_fn Z.succ) (just 4%Z) tt).1 = false
  ∧ crashes (and_then_maybe double_if_positive succ_if_small 60%Z tt).1 = false.
Proof.
  apply (combinators_never_crash (W := unit)
           (pure_fn Z.succ) double_if_positive succ_if_small);
    intros; reflexivity.
Defined.

Lemma combinators_propagate_exceptions_witness :
  and_then_maybe (uncounted (throwing 404)) (counted succ_if_small)
    5%Z (tt, 0) = (Throw (thrown 404), (tt, 0))
  ∧ lift_maybe (throwing (B := Z) 404) (just 5%Z) tt = (Throw (thrown 404), tt).
Proof.
  split.
  - exact (proj2 (proj1 (combinators_propagate_exceptions
                           (pure_fn Z.succ) (throwing 404) succ_if_small
                           (thrown 404) tt tt) 5%Z eq_refl) 0).
  - exact (proj2 (proj2 (combinators_propagate_exceptions
                           (throwing (B := Z) 404) double_if_positive
                           succ_if_small (thrown 404) tt tt)) 5%Z eq_refl).
Defined.

Lemma and_then_maybe3_short_circuit_witness :
  and_then_maybe3 (uncounted double_if_positive) (uncounted succ_if_small)
    (counted succ_if_small) 60%Z (tt, 0) = (Ret nothing, (tt, 0))
  ∧ and_then_maybe3 double_if_positive succ_if_small succ_if_small 5%Z tt
    = succ_if_small 11%Z tt.
Proof.
  split.
  - exact (proj2 (proj1 (proj2 (and_then_maybe3_short_circuit
                                  double_if_positive succ_if_small
                                  succ_if_small 60%Z tt tt))
                   120%Z tt eq_refl eq_refl) 0).
  - exact (proj2 (proj2 (and_then_maybe3_short_circuit
                           double_if_positive succ_if_small succ_if_small
                           5%Z tt tt)) 10%Z 11%Z tt eq_refl eq_refl).
Defined.

Lemma and_then_maybe_just_inv_witness :
  ∃ y w1, double_if_positive 5%Z tt = (Ret (just y), w1)
        ∧ succ_if_small y w1 = (Ret (just 11%Z), tt).
Proof.
  exact (proj1 (and_then_maybe_just_inv double_if_positive succ_if_small
                  succ_if_small succ_if_small 5%Z tt tt)
           (just 11%Z) eq_refl eq_refl).
Defined.

Lemma lift_maybe_preserves_state_witness :
  is_just (just 5%Z) = is_just (just 4%Z)
  ∧ (∀ v, just 4%Z = just v →
       ∃ b, pure_fn Z.succ v tt = (Ret b, tt) ∧ just 5%Z = just b).
Proof.
  exact (lift_maybe_preserves_state (pure_fn Z.succ) (just 4%Z) tt tt
           (just 5%Z) eq_refl).
Defined.

Lemma maybe_eq_equivalence_witness :
  @maybe_eq Z Z_cpp_eq (just 3%Z) (just 3%Z) = Ret true
  ∧ @maybe_eq Z Z_cpp_eq (just 3%Z) nothing
    = @maybe_eq Z Z_cpp_eq nothing (just 3%Z).
Proof.
  destruct (@maybe_eq_equivalence Z Z_cpp_eq Z.eqb_refl Z.eqb_sym
              (λ a b c Hab Hbc,
                 proj2 (Z.eqb_eq a c)
                   (eq_trans (proj1 (Z.eqb_eq a b) Hab)
                             (proj1 (Z.eqb_eq b c) Hbc)))
              (just 3%Z) nothing (just 3%Z)) as (Hr & Hs & _).
  by split.
Defined.

Lemma mem_accessors_refine_witness :
  Mem.contents mem_two 1%positive = Some (just 42%Z)
  ∧ Mem.is_just 1%positive mem_two = (Ret true, mem_two)
  ∧ (r ← Mem.unsafe_get_just 1%positive; Mem.load r) mem_two
    = (Ret 42%Z, mem_two).
Proof.
  split; [reflexivity|].
  exact (mem_accessors_refine mem_two 1%positive (just 42%Z) eq_refl).
Defined.

Lemma mem_ctor_spec_witness :
  owned mem_two ∧ Mem.objs mem_two !! 3%positive = None
  ∧ ∃ s', Mem.ctor_val 3%positive 7%Z mem_two = (Ret tt, s')
        ∧ Mem.contents s' 3%positive = Some (just 7%Z)
        ∧ Mem.contents s' 1%positive = Some (just 42%Z)
        ∧ owned s'.
Proof.
  assert (Hown : owned mem_two) by (by apply (bool_decide_unpack _)).
  split; [exact Hown|]. split; [reflexivity|].
  destruct (proj2 (mem_ctor_spec mem_two 3%positive 7%Z Hown eq_refl))
    as (s' & Hrun & Hc & Hfr & Hown').
  exists s'. split; [exact Hrun|]. split; [exact Hc|]. split; [|exact Hown'].
  by rewrite Hfr.
Defined.

Lemma mem_ctor_copy_deep_witness :
  ∃ s', Mem.ctor_copy 3%positive 1%positive mem_two = (Ret tt, s')
      ∧ Mem.contents s' 3%positive = Some (just 42%Z)
      ∧ Mem.contents s' 1%positive = Some (just 42%Z)
      ∧ owned s'.
Proof.
  assert (Hown : owned mem_two) by (by apply (bool_decide_unpack _)).
  destruct (mem_ctor_copy_deep mem_two 3%positive 1%positive (just 42%Z)
              Hown eq_refl eq_refl) as (s' & Hrun & Hc & Hfr & _ & Hown').
  exists s'. split; [exact Hrun|]. split; [exact Hc|]. split; [|exact Hown'].
  by rewrite Hfr.
Defined.

Lemma mem_assign_spec_witness :
  ∃ s', Mem.assign 2%positive 1%positive mem_two = (Ret 2%positive, s')
      ∧ Mem.contents s' 2%positive = Some (just 42%Z)
      ∧ Mem.contents s' 1%positive = Some (just 42%Z)
      ∧ owned s'.
Proof.
  assert (Hown : owned mem_two) by (by apply (bool_decide_unpack _)).
  destruct (mem_assign_spec mem_two 2%positive 1%positive nothing (just 42%Z)
              Hown eq_refl eq_refl) as (s' & Hrun & Hc & Hfr & Hown').
  exists s'. split; [exact Hrun|]. split; [exact Hc|]. split; [|exact Hown'].
  by rewrite Hfr.
Defined.

Lemma mem_copy_independent_witness :
  ∃ s1 s2, Mem.ctor_copy 3%positive 1%positive mem_two = (Ret tt, s1)
         ∧ Mem.assign 3%positive 2%positive s1 = (Ret 3%positive, s2)
         ∧ Mem.contents s2 3%positive = Some nothing
         ∧ Mem.contents s2 1%positive = Some (just 42%Z).
Proof.
  assert (Hown : owned mem_two) by (by apply (bool_decide_unpack _)).
  exact (mem_copy_independent mem_two 3%positive 1%positive 2%positive
           (just 42%Z) nothing Hown eq_refl eq_refl eq_refl).
Defined.
